(** * Wildcard matching over an immutable radix tree

    A shallow embedding of [wildcard.go] (package [iradix]) and the
    properties of [MatchWithWildcards] and [matchWithWildcardsFrom].

    Keys and edge labels are byte sequences ([list byte]); a node is a
    record of an optional leaf, the label of the edge leading to it (its
    [prefix]) and its outgoing edges, each tagged with the first byte of the
    child's label.  A tree of the library is finite and shares no node
    with itself, hence the inductive type.  The recursion of the Go code
    follows child pointers, so it is defined here by well-founded recursion
    on the size of the node; that the remainder of the key shrinks as well
    is a property of trees whose labels are not empty, proved further down
    on a version of the traversal that counts its recursive calls.

    Part I holds the definitions, Part II the lemmas, Part III the
    properties of the matcher and Part IV their instances on hand-built
    trees. *)

From Equations Require Import Equations.
From Stdlib Require Import Strings.Byte Strings.String.
From Stdlib Require Import List Bool Arith Lia.
Import ListNotations.

(** * Part I: definitions *)

(** ** Bytes and keys *)

Definition Key := list byte.

(** [bytes_of "tenant.*"] is the Go conversion [[]byte("tenant.*")]. *)
Definition bytes_of (s : string) : Key := list_byte_of_string s.

Definition star : byte := "*"%byte.
Definition dot : byte := "."%byte.

(** [bytes.HasPrefix(s, prefix)] of the Go standard library. *)
Fixpoint HasPrefix (s prefix : Key) {struct prefix} : bool :=
  match prefix, s with
  | [], _ => true
  | _ :: _, [] => false
  | b :: prefix', c :: s' => Byte.eqb b c && HasPrefix s' prefix'
  end.

Definition inspect {A} (a : A) : {b | a = b} := exist _ a eq_refl.

Section Radix.

Context {T : Type}.

(** ** The tree *)

(** Modelled from the spec: the [Node] type of the radix tree is declared
    in the tree's own file, which is not part of the sources at hand.  Per
    the data model a node owns its outgoing edges, carries the byte
    sequence consumed along the edge leading to it ([prefix]) and may be
    terminal ([leaf], holding the stored value).  Each edge is keyed by one
    byte, its [label]. *)
#[warnings="-register-all"]
Inductive Node : Type :=
  mkNode (leaf : option T) (prefix : Key) (edges : list (byte * Node)).

Definition leaf (n : Node) : option T := let 'mkNode l _ _ := n in l.
Definition prefix (n : Node) : Key := let 'mkNode _ p _ := n in p.
Definition edges (n : Node) : list (byte * Node) := let 'mkNode _ _ es := n in es.

Fixpoint node_size (n : Node) : nat :=
  match n with
  | mkNode _ _ es => S (list_sum (map (fun e => node_size (snd e)) es))
  end.

(** Modelled from the spec: [isLeaf] ("IsTerminal") is true when some
    stored pattern ends exactly at the node. *)
Definition isLeaf (n : Node) : bool :=
  match leaf n with Some _ => true | None => false end.

Fixpoint lookupEdge (es : list (byte * Node)) (label : byte) : option Node :=
  match es with
  | [] => None
  | (l, child) :: es' => if Byte.eqb l label then Some child else lookupEdge es' label
  end.

(** Modelled from the spec: [getEdge] ("ChildEdge") returns the outgoing
    edge for the given byte, or nothing ([nil] in Go).  The index that the
    Go function also returns is discarded at every call site. *)
Definition getEdge (n : Node) (label : byte) : option Node :=
  lookupEdge (edges n) label.

(** The recursive calls below descend along an edge, to a smaller node. *)
Ltac descends_along_edge :=
  lazymatch goal with
  | H : getEdge ?n _ = Some ?next |- node_size ?next < node_size ?n =>
      clear - H; destruct n as [? ? es]; unfold getEdge in H; simpl in *;
      induction es as [|[? ?] ? IH]; simpl in *; [discriminate|];
      destruct (Byte.eqb _ _);
      [injection H as ->; lia | specialize (IH H); lia]
  end.

(** Modelled from the spec: [Get] is the exact lookup of a full key, the
    usual radix descent: follow the edge of the next byte, consume the
    child's label, stop at key exhaustion. *)
Equations? Get (n : Node) (search : Key) : option T by wf (node_size n) lt :=
  Get n [] := leaf n;
  Get n (c :: rest) with inspect (getEdge n c) := {
    | exist _ None _ := None
    | exist _ (Some next) Hnext :=
        if HasPrefix (c :: rest) (prefix next)
        then Get next (skipn (length (prefix next)) (c :: rest))
        else None }.
Proof. descends_along_edge. Qed.

Definition found (r : option T) : bool :=
  match r with Some _ => true | None => false end.

(** ** wildcard.go *)

(** Lines 45-46: [_, wildcardNode := n.getEdge('*')] and the test
    [wildcardNode != nil && wildcardNode.isLeaf()]. *)
Definition hasWildcardChild (n : Node) : bool :=
  match getEdge n star with
  | Some wildcardNode => isLeaf wildcardNode
  | None => false
  end.

(** Lines 58-60: the label ends with the two bytes ".*". *)
Definition endsWithDotStar (p : Key) : bool :=
  (2 <=? length p)
  && Byte.eqb (nth (length p - 2) p x00) dot
  && Byte.eqb (nth (length p - 1) p x00) star.

(** Lines 58-61: such a label, on a terminal node. *)
Definition isWildcardPattern (next : Node) : bool :=
  endsWithDotStar (prefix next) && isLeaf next.

(** Line 63: [next.prefix[:len(next.prefix)-2]]. *)
Definition wildcardPrefix (next : Node) : Key :=
  firstn (length (prefix next) - 2) (prefix next).

(** Lines 67-68: the remainder ends with the stem or continues with a dot. *)
Definition atBoundary (search wp : Key) : bool :=
  (length search =? length wp)
  || ((length wp <? length search) && Byte.eqb (nth (length wp) search x00) dot).

(** Lines 58-72 as one test: when it holds the function returns true. *)
Definition wildcardSuffixMatch (next : Node) (search : Key) : bool :=
  isWildcardPattern next
  && HasPrefix search (wildcardPrefix next)
  && atBoundary search (wildcardPrefix next).

(** Line 81, the value returned when the remainder is a prefix of the
    label without the label being a prefix of the remainder. *)
Definition shorterRemainder (next : Node) (search : Key) : bool :=
  isLeaf next && (length search =? length (prefix next)).

Equations? matchWithWildcardsFrom (n : Node) (originalKey search : Key) : bool
  by wf (node_size n) lt :=
  matchWithWildcardsFrom n originalKey [] := isLeaf n;
  matchWithWildcardsFrom n originalKey (c :: rest) with hasWildcardChild n := {
    | true := true
    | false with inspect (getEdge n c) := {
      | exist _ None _ := false
      | exist _ (Some next) Hnext :=
          if wildcardSuffixMatch next (c :: rest) then true
          else if HasPrefix (c :: rest) (prefix next)
          then matchWithWildcardsFrom next originalKey
                 (skipn (length (prefix next)) (c :: rest))
          else if HasPrefix (prefix next) (c :: rest)
          then shorterRemainder next (c :: rest)
          else false } }.
Proof. descends_along_edge. Qed.

Definition MatchWithWildcards (n : Node) (key : Key) : bool :=
  if length key =? 0 then found (Get n key)
  else if found (Get n [star]) then true
  else matchWithWildcardsFrom n key key.

(** The same traversal with the depth of the recursion made explicit:
    every call of line 77 spends one unit of [fuel]. *)
Fixpoint matchWithWildcardsFromDepth (fuel : nat) (n : Node)
    (originalKey search : Key) : option bool :=
  match fuel with
  | 0 => None
  | S fuel' =>
      match search with
      | [] => Some (isLeaf n)
      | c :: _ =>
          if hasWildcardChild n then Some true
          else match getEdge n c with
               | None => Some false
               | Some next =>
                   if wildcardSuffixMatch next search then Some true
                   else if HasPrefix search (prefix next)
                   then matchWithWildcardsFromDepth fuel' next originalKey
                          (skipn (length (prefix next)) search)
                   else if HasPrefix (prefix next) search
                   then Some (shorterRemainder next search)
                   else Some false
               end
      end
  end.

(** [Get] and [MatchWithWildcards] counted the same way: one unit of
    [fuel] for every turn of the loop of [Get]. *)
Fixpoint GetDepth (fuel : nat) (n : Node) (search : Key) : option (option T) :=
  match fuel with
  | 0 => None
  | S fuel' =>
      match search with
      | [] => Some (leaf n)
      | c :: _ =>
          match getEdge n c with
          | None => Some None
          | Some next =>
              if HasPrefix search (prefix next)
              then GetDepth fuel' next (skipn (length (prefix next)) search)
              else Some None
          end
      end
  end.

Definition MatchWithWildcardsDepth (fuel : nat) (n : Node) (key : Key)
    : option bool :=
  if length key =? 0 then option_map found (GetDepth fuel n key)
  else match GetDepth fuel n [star] with
       | None => None
       | Some r =>
           if found r then Some true
           else matchWithWildcardsFromDepth fuel n key key
       end.

(** ** The stored patterns and the invariants of the tree *)

(** The keys stored below a node, relative to that node: the labels along
    every path to a terminal node, concatenated.  The label of the node
    itself is not part of them (the root's label is never read). *)
Fixpoint keys (n : Node) : list Key :=
  match n with
  | mkNode l _ es =>
      (match l with Some _ => [[]] | None => [] end)
      ++ flat_map (fun e => map (app (prefix (snd e))) (keys (snd e))) es
  end.

Fixpoint distinct (l : list byte) : bool :=
  match l with
  | [] => true
  | b :: l' => negb (existsb (Byte.eqb b) l') && distinct l'
  end.

(** The edge that leads to [child] is keyed by the first byte of the
    child's label; in particular the label is not empty. *)
Definition labelled (e : byte * Node) : bool :=
  match prefix (snd e) with
  | [] => false
  | b :: _ => Byte.eqb b (fst e)
  end.

(** The radix invariant: no two sibling edges share a first byte, and
    every edge is keyed by the first byte of its label. *)
Fixpoint radix (n : Node) : bool :=
  match n with
  | mkNode _ _ es =>
      distinct (map fst es)
      && forallb (fun e => labelled e && radix (snd e)) es
  end.

(** Edge labels are non-empty, at every depth. *)
Fixpoint nonempty_labels (n : Node) : bool :=
  match n with
  | mkNode _ _ es =>
      forallb (fun e => negb (length (prefix (snd e)) =? 0)
                        && nonempty_labels (snd e)) es
  end.

(** Every label of the tree, the root's excluded. *)
Fixpoint labels (n : Node) : list Key :=
  match n with
  | mkNode _ _ es => flat_map (fun e => prefix (snd e) :: labels (snd e)) es
  end.

(** ** Patterns *)

Definition star_free (q : Key) : bool :=
  forallb (fun b => negb (Byte.eqb b star)) q.

(** A well-formed pattern is an exact key (no '*' in it), a stem that is
    not empty and has no '*' followed by ".*", or the pattern "*". *)
Definition wf_pattern (q : Key) : bool :=
  match rev q with
  | s :: d :: stem =>
      if Byte.eqb s star
      then Byte.eqb d dot && negb (length stem =? 0) && star_free stem
      else star_free q
  | [s] => true
  | [] => true
  end.

Definition wf_tree (n : Node) : bool :=
  radix n && forallb wf_pattern (keys n).

(** [p] is a prefix of [k] that ends at a segment boundary: it is all of
    [k], or the next byte of [k] is a dot. *)
Definition segment_prefix (p k : Key) : Prop :=
  k = p \/ exists rest, k = p ++ dot :: rest.

(** The contract of the matcher, on the set of stored patterns. *)
Definition matches (pats : list Key) (k : Key) : Prop :=
  In k pats
  \/ (exists p, segment_prefix p k /\ In (p ++ [dot; star]) pats)
  \/ (In [star] pats /\ k <> []).

(** The three ways in which the traversal lets a stored pattern [q] answer
    for a key [k]: [q] is [k]; [q] is a stem followed by ".*" and the stem
    is a segment prefix of [k]; or [q] has a '*' right after a proper
    prefix of [k] (the child found on the edge '*' at lines 45-49). *)
Definition covers (q k : Key) : Prop :=
  q = k
  \/ (exists s, q = s ++ [dot; star] /\ segment_prefix s k)
  \/ (exists u c v rest, k = u ++ c :: v /\ q = u ++ star :: rest).

End Radix.

Arguments Node T : clear implicits.

(** The same tree with other values at its terminal nodes. *)
Fixpoint mapValues {T U : Type} (f : T -> U) (n : Node T) : Node U :=
  match n with
  | mkNode l p es =>
      mkNode (option_map f l) p
             (map (fun e => (fst e, mapValues f (snd e))) es)
  end.

(** ** Hand-built trees *)

Module Examples.

Definition leafNode (p : string) : Node unit := mkNode (Some tt) (bytes_of p) [].
Definition inner (p : string) (es : list (byte * Node unit)) : Node unit :=
  mkNode None (bytes_of p) es.

(** {"*"} *)
Definition treeA : Node unit := inner "" [("*"%byte, leafNode "*")].
(** {"tenant.*"} *)
Definition treeB : Node unit := inner "" [("t"%byte, leafNode "tenant.*")].
(** {"tenant.abc123.project.xyz789.member.add"} *)
Definition treeC : Node unit :=
  inner "" [("t"%byte, leafNode "tenant.abc123.project.xyz789.member.add")].
(** {"tenant.abc123.project.*"} *)
Definition treeD : Node unit :=
  inner "" [("t"%byte, leafNode "tenant.abc123.project.*")].
(** {} *)
Definition treeE : Node unit := inner "" [].

(** {"a.*"} *)
Definition treeStem : Node unit := inner "" [("a"%byte, leafNode "a.*")].

(** {"a.*", "a.b"}: the edge "a.*" is split after the dot. *)
Definition treeSplit : Node unit :=
  inner "" [("a"%byte, inner "a." [("*"%byte, leafNode "*"); ("b"%byte, leafNode "b")])].

(** {"a.*x"}: a pattern with a '*' that is not final, on one label. *)
Definition treeInnerAlone : Node unit := inner "" [("a"%byte, leafNode "a.*x")].

(** {"a.*x", "a.b"}: the same pattern, its label cut before the '*'. *)
Definition treeInner : Node unit :=
  inner "" [("a"%byte, inner "a." [("*"%byte, leafNode "*x"); ("b"%byte, leafNode "b")])].

(** {"tenant.*", "tenantX"} *)
Definition treeTenant : Node unit :=
  inner "" [("t"%byte, mkNode None (bytes_of "tenant")
                         [("."%byte, leafNode ".*"); ("X"%byte, leafNode "X")])].

(** A chain of nodes with empty labels above the leaf "a": not a radix
    tree. *)
Definition treeEmptyLabels : Node unit :=
  inner "" [("a"%byte, inner "" [("a"%byte, inner "" [("a"%byte, leafNode "a")])])].

End Examples.

(** * Part II: lemmas *)

(** ** Facts on bytes and prefixes *)

Lemma byte_eqb_eq (a b : byte) : Byte.eqb a b = true <-> a = b.
Proof. split; [apply Byte.byte_dec_bl | apply Byte.byte_dec_lb]. Qed.

Lemma byte_eqb_refl (a : byte) : Byte.eqb a a = true.
Proof. now apply byte_eqb_eq. Qed.

Lemma HasPrefix_app (p r : Key) : HasPrefix (p ++ r) p = true.
Proof. induction p as [|b p IH]; simpl; [reflexivity|]. now rewrite byte_eqb_refl. Qed.

Lemma HasPrefix_inv (s p : Key) :
  HasPrefix s p = true -> s = p ++ skipn (length p) s.
Proof.
  revert s; induction p as [|b p IH]; intros s H; [reflexivity|].
  destruct s as [|c s]; simpl in H; [discriminate|].
  apply andb_true_iff in H as [Hb Hp]. apply byte_eqb_eq in Hb; subst c.
  simpl. f_equal. now apply IH.
Qed.

Lemma HasPrefix_iff (s p : Key) :
  HasPrefix s p = true <-> exists r, s = p ++ r.
Proof.
  split.
  - intros H. eexists. now apply HasPrefix_inv.
  - intros [r ->]. apply HasPrefix_app.
Qed.

Lemma skipn_app_exact (p r : Key) : skipn (length p) (p ++ r) = r.
Proof. induction p; simpl; auto. Qed.

Lemma HasPrefix_length (s p : Key) :
  HasPrefix s p = true -> length p <= length s.
Proof. intros [r ->]%HasPrefix_iff. rewrite length_app. lia. Qed.

(** Two keys that are prefixes of each other and have the same length are
    equal: the situation line 81 tests for. *)
Lemma HasPrefix_same_length (s p : Key) :
  HasPrefix p s = true -> length s = length p -> HasPrefix s p = true.
Proof.
  intros [r ->]%HasPrefix_iff Hlen. rewrite length_app in Hlen.
  destruct r; [rewrite app_nil_r; apply HasPrefix_iff; exists []; now rewrite app_nil_r|].
  simpl in Hlen; lia.
Qed.

Section RadixFacts.

Context {T : Type}.

(** ** Unfolding equations, in the order of the source *)

Lemma Get_eq (n : Node T) search :
  Get n search =
  match search with
  | [] => leaf n
  | c :: _ =>
      match getEdge n c with
      | None => None
      | Some next =>
          if HasPrefix search (prefix next)
          then Get next (skipn (length (prefix next)) search)
          else None
      end
  end.
Proof.
  destruct search as [|c rest]; simp Get; [reflexivity|].
  destruct (inspect (getEdge n c)) as [[next|] E]; simp Get; rewrite E; reflexivity.
Qed.

Lemma matchWithWildcardsFrom_eq (n : Node T) originalKey search :
  matchWithWildcardsFrom n originalKey search =
  match search with
  | [] => isLeaf n
  | c :: _ =>
      if hasWildcardChild n then true
      else match getEdge n c with
           | None => false
           | Some next =>
               if wildcardSuffixMatch next search then true
               else if HasPrefix search (prefix next)
               then matchWithWildcardsFrom next originalKey
                      (skipn (length (prefix next)) search)
               else if HasPrefix (prefix next) search
               then shorterRemainder next search
               else false
           end
  end.
Proof.
  destruct search as [|c rest]; simp matchWithWildcardsFrom; [reflexivity|].
  destruct (hasWildcardChild n); simpl; [reflexivity|].
  destruct (inspect (getEdge n c)) as [[next|] E];
    simp matchWithWildcardsFrom; rewrite E; reflexivity.
Qed.

(** ** Nodes, edges and stored keys *)

Lemma edge_size (n : Node T) b child :
  In (b, child) (edges n) -> node_size child < node_size n.
Proof.
  destruct n as [l p es]; simpl.
  induction es as [|e es IH]; simpl; [tauto|].
  intros [->|H]; simpl; [lia|]. specialize (IH H). lia.
Qed.

(** Induction on the tree: a property holds of a node as soon as it holds
    of the children its edges lead to. *)
Lemma Node_ind_edges (P : Node T -> Prop) :
  (forall n, (forall b child, In (b, child) (edges n) -> P child) -> P n) ->
  forall n, P n.
Proof.
  intros step n.
  remember (node_size n) as k eqn:Hk. revert n Hk.
  induction k as [k IH] using lt_wf_ind. intros n ->.
  apply step. intros b child Hin.
  apply (IH (node_size child)); [now apply edge_size with b|reflexivity].
Qed.

Lemma getEdge_In (n : Node T) label next :
  getEdge n label = Some next -> In (label, next) (edges n).
Proof.
  unfold getEdge. induction (edges n) as [|[b child] es IH]; simpl; [discriminate|].
  destruct (Byte.eqb b label) eqn:E.
  - apply byte_eqb_eq in E. intros [= ->]. left. now subst.
  - intros H. right. now apply IH.
Qed.

Lemma getEdge_distinct (n : Node T) b child :
  distinct (map fst (edges n)) = true ->
  In (b, child) (edges n) -> getEdge n b = Some child.
Proof.
  unfold getEdge. induction (edges n) as [|[b' child'] es IH]; simpl; [tauto|].
  intros [Hnew Hrest]%andb_true_iff [[= -> ->]|Hin].
  - now rewrite byte_eqb_refl.
  - destruct (Byte.eqb b' b) eqn:E; [|now apply IH].
    apply byte_eqb_eq in E; subst b'.
    apply negb_true_iff in Hnew.
    assert (existsb (Byte.eqb b) (map fst es) = true) as Hex; [|congruence].
    apply existsb_exists. exists b. split; [|apply byte_eqb_refl].
    apply in_map_iff. now exists (b, child).
Qed.

Lemma keys_iff (n : Node T) k :
  In k (keys n) <->
  (k = [] /\ isLeaf n = true)
  \/ exists b child r,
       In (b, child) (edges n) /\ In r (keys child) /\ k = prefix child ++ r.
Proof.
  destruct n as [l p es]; unfold isLeaf; simpl.
  rewrite in_app_iff, in_flat_map. split.
  - intros [H|[[b child] [Hin Hk]]].
    + left. destruct l; simpl in H; [|tauto]. destruct H as [<-|[]]. auto.
    + right. apply in_map_iff in Hk as [r [<- Hr]]. now exists b, child, r.
  - intros [[-> Hl]|[b [child [r [Hin [Hr ->]]]]]].
    + left. destruct l; [now left|discriminate].
    + right. exists (b, child). split; [assumption|]. now apply in_map.
Qed.

Lemma key_of_edge (n : Node T) b child r :
  In (b, child) (edges n) -> In r (keys child) -> In (prefix child ++ r) (keys n).
Proof. intros Hin Hr. apply keys_iff. right. now exists b, child, r. Qed.

Lemma radix_inv (n : Node T) :
  radix n = true ->
  distinct (map fst (edges n)) = true
  /\ forall b child, In (b, child) (edges n) ->
       (exists t, prefix child = b :: t) /\ radix child = true.
Proof.
  destruct n as [l p es]; simpl.
  intros [Hd Hall]%andb_true_iff. split; [assumption|].
  intros b child Hin. rewrite forallb_forall in Hall.
  specialize (Hall _ Hin). apply andb_true_iff in Hall as [Hlab Hr].
  split; [|assumption]. unfold labelled in Hlab; simpl in Hlab.
  destruct (prefix child) as [|b' t]; [discriminate|].
  apply byte_eqb_eq in Hlab; subst. now exists t.
Qed.

(** In a radix tree the empty key is stored at a node exactly when the
    node itself is terminal. *)
Lemma nil_stored (n : Node T) : radix n = true -> (In [] (keys n) <-> isLeaf n = true).
Proof.
  intros Hr. rewrite keys_iff. split; [|auto].
  intros [[_ H]|[b [child [r [Hin [_ Hk]]]]]]; [assumption|].
  apply radix_inv in Hr as [_ Hr]. destruct (Hr _ _ Hin) as [[t Ht] _].
  rewrite Ht in Hk. discriminate.
Qed.

(** In a radix tree the edge to follow for a stored key is the edge of
    its first byte. *)
Lemma stored_edge (n : Node T) c k :
  radix n = true -> In (c :: k) (keys n) ->
  exists child r,
    getEdge n c = Some child /\ radix child = true
    /\ In r (keys child) /\ c :: k = prefix child ++ r
    /\ exists t, prefix child = c :: t.
Proof.
  intros Hr Hin. apply keys_iff in Hin as [[[=] _]|[b [child [r [Hin [Hk Heq]]]]]].
  apply radix_inv in Hr as [Hd Hr]. destruct (Hr _ _ Hin) as [[t Ht] Hrc].
  assert (b = c) by (rewrite Ht in Heq; now injection Heq). subst b.
  exists child, r. repeat split; try assumption.
  - now apply getEdge_distinct.
  - now exists t.
Qed.

(** ** The wildcard tests of lines 58-68 *)

Lemma isWildcardPattern_intro (next : Node T) w :
  prefix next = w ++ [dot; star] -> isLeaf next = true ->
  isWildcardPattern next = true /\ wildcardPrefix next = w.
Proof.
  intros Hp Hl. unfold isWildcardPattern, endsWithDotStar, wildcardPrefix. rewrite Hp, Hl.
  rewrite length_app; simpl length.
  replace (length w + 2 - 2) with (length w) by lia.
  replace (length w + 2 - 1) with (S (length w)) by lia.
  split.
  - rewrite !andb_true_iff. repeat split.
    + apply Nat.leb_le; lia.
    + rewrite app_nth2, Nat.sub_diag by lia. reflexivity.
    + rewrite app_nth2 by lia.
      replace (S (length w) - length w) with 1 by lia. reflexivity.
  - rewrite firstn_app, Nat.sub_diag, firstn_all. simpl. apply app_nil_r.
Qed.

Lemma isWildcardPattern_elim (next : Node T) :
  isWildcardPattern next = true ->
  isLeaf next = true /\ prefix next = wildcardPrefix next ++ [dot; star].
Proof.
  unfold isWildcardPattern, endsWithDotStar, wildcardPrefix.
  rewrite !andb_true_iff. intros [[[Hlen Hd] Hs] Hl]. split; [assumption|].
  apply Nat.leb_le in Hlen. apply byte_eqb_eq in Hd, Hs.
  destruct (rev (prefix next)) as [|b [|a t]] eqn:Hrev.
  - apply (f_equal (@length byte)) in Hrev. rewrite length_rev in Hrev. simpl in Hrev. lia.
  - apply (f_equal (@length byte)) in Hrev. rewrite length_rev in Hrev. simpl in Hrev. lia.
  - assert (prefix next = rev t ++ [a; b]) as Hp.
    { rewrite <- (rev_involutive (prefix next)), Hrev. simpl.
      now rewrite <- app_assoc. }
    rewrite Hp in *. rewrite length_app in *. simpl length in *.
    replace (length (rev t) + 2 - 2) with (length (rev t)) in * by lia.
    replace (length (rev t) + 2 - 1) with (S (length (rev t))) in * by lia.
    rewrite app_nth2, Nat.sub_diag in Hd by lia. simpl in Hd.
    rewrite app_nth2 in Hs by lia.
    replace (S (length (rev t)) - length (rev t)) with 1 in Hs by lia.
    simpl in Hs. subst a b.
    rewrite firstn_app, Nat.sub_diag, firstn_all. simpl. now rewrite app_nil_r.
Qed.

Lemma boundary_iff (search w : Key) :
  HasPrefix search w && atBoundary search w = true <-> segment_prefix w search.
Proof.
  unfold atBoundary, segment_prefix. split.
  - intros [[r ->]%HasPrefix_iff Hb]%andb_true_iff.
    rewrite length_app in Hb.
    apply orb_true_iff in Hb as [Hb|[_ Hb]%andb_true_iff].
    + apply Nat.eqb_eq in Hb. destruct r; simpl in Hb; [|lia].
      left. apply app_nil_r.
    + rewrite app_nth2, Nat.sub_diag in Hb by lia.
      destruct r as [|c r]; simpl in Hb; [discriminate|].
      apply byte_eqb_eq in Hb; subst c. right. now exists r.
  - intros [->|[rest ->]]; apply andb_true_iff; split.
    + rewrite <- (app_nil_r w) at 1. apply HasPrefix_app.
    + now rewrite Nat.eqb_refl.
    + apply HasPrefix_app.
    + rewrite length_app; simpl length.
      rewrite app_nth2, Nat.sub_diag by lia. simpl.
      replace (length w <? length w + S (length rest)) with true
        by (symmetry; apply Nat.ltb_lt; lia).
      apply orb_true_r.
Qed.

Lemma wildcardSuffixMatch_iff (next : Node T) search :
  wildcardSuffixMatch next search = true <->
  isLeaf next = true
  /\ exists w, prefix next = w ++ [dot; star] /\ segment_prefix w search.
Proof.
  unfold wildcardSuffixMatch. rewrite <- andb_assoc, andb_true_iff, boundary_iff.
  split.
  - intros [[Hl Hp]%isWildcardPattern_elim Hb]. split; [assumption|].
    now exists (wildcardPrefix next).
  - intros [Hl [w [Hp Hb]]].
    destruct (isWildcardPattern_intro _ _ Hp Hl) as [Hw ->]. auto.
Qed.

(** ** What a match is due to *)

Lemma segment_prefix_app (w s k : Key) :
  segment_prefix s k -> segment_prefix (w ++ s) (w ++ k).
Proof.
  intros [->|[rest ->]]; [now left|right].
  exists rest. now rewrite app_assoc.
Qed.

Lemma covers_app (w q k : Key) : covers q k -> covers (w ++ q) (w ++ k).
Proof.
  intros [->|[[s [-> Hs]]|[u [c [v [rest [-> ->]]]]]]].
  - now left.
  - right; left. exists (w ++ s). split; [now rewrite app_assoc|].
    now apply segment_prefix_app.
  - right; right. exists (w ++ u), c, v, rest. now rewrite !app_assoc.
Qed.

Lemma Get_stored (n : Node T) k v : Get n k = Some v -> In k (keys n).
Proof.
  revert k. induction n as [n IH] using Node_ind_edges. intros k.
  rewrite Get_eq. destruct k as [|c rest].
  - intros H. apply keys_iff. left. unfold isLeaf. now rewrite H.
  - destruct (getEdge n c) as [next|] eqn:E; [|discriminate].
    destruct (HasPrefix (c :: rest) (prefix next)) eqn:Hp; [|discriminate].
    intros H. apply getEdge_In in E.
    rewrite (HasPrefix_inv _ _ Hp). apply key_of_edge with c; [assumption|].
    now apply (IH c next).
Qed.

Lemma Get_found (n : Node T) k : radix n = true -> In k (keys n) -> found (Get n k) = true.
Proof.
  revert k. induction n as [n IH] using Node_ind_edges. intros k Hr Hin.
  rewrite Get_eq. destruct k as [|c k].
  - apply nil_stored in Hin; [|assumption]. unfold isLeaf in Hin.
    now destruct (leaf n).
  - destruct (stored_edge _ _ _ Hr Hin) as [child [r [E [Hrc [Hk [Heq _]]]]]].
    rewrite E, Heq, HasPrefix_app, skipn_app_exact.
    apply getEdge_In in E. now apply (IH c child).
Qed.

(** Line 81 never yields true: were the lengths equal, the test of line 75
    would have succeeded. *)
Lemma shorterRemainder_false (next : Node T) search :
  HasPrefix search (prefix next) = false ->
  HasPrefix (prefix next) search = true ->
  shorterRemainder next search = false.
Proof.
  intros Hno Hyes. unfold shorterRemainder.
  destruct (length search =? length (prefix next)) eqn:E; [|apply andb_false_r].
  apply Nat.eqb_eq in E.
  rewrite (HasPrefix_same_length _ _ Hyes E) in Hno. discriminate.
Qed.

(** A terminal child on the edge '*' stores a key that begins with '*'. *)
Lemma hasWildcardChild_stored (n : Node T) :
  radix n = true -> hasWildcardChild n = true ->
  exists rest, In (star :: rest) (keys n).
Proof.
  intros Hr. unfold hasWildcardChild.
  destruct (getEdge n star) as [w|] eqn:Ew; [|discriminate]. intros Hw.
  apply getEdge_In in Ew. destruct (radix_inv _ Hr) as [_ Hedges].
  destruct (Hedges _ _ Ew) as [[t Ht] Hrw]. exists t.
  rewrite <- Ht, <- (app_nil_r (prefix w)).
  apply key_of_edge with star; [assumption|]. now apply nil_stored.
Qed.

Lemma matchWithWildcardsFrom_covered (n : Node T) o search :
  radix n = true ->
  matchWithWildcardsFrom n o search = true ->
  exists q, In q (keys n) /\ covers q search.
Proof.
  revert search. induction n as [n IH] using Node_ind_edges. intros search Hr.
  rewrite matchWithWildcardsFrom_eq. destruct search as [|c rest].
  { intros H. exists []. split; [|now left]. apply keys_iff. now left. }
  destruct (hasWildcardChild n) eqn:Hwc.
  { intros _. destruct (hasWildcardChild_stored _ Hr Hwc) as [t Ht].
    exists (star :: t). split; [assumption|].
    right; right. now exists [], c, rest, t. }
  destruct (radix_inv _ Hr) as [_ Hedges].
  revert IH. generalize (c :: rest) as search. intros search IH.
  destruct (getEdge n c) as [next|] eqn:E; [|discriminate].
  apply getEdge_In in E. destruct (Hedges _ _ E) as [_ Hrn].
  destruct (wildcardSuffixMatch next search) eqn:Hw.
  { intros _. apply wildcardSuffixMatch_iff in Hw as [Hl [w [Hp Hs]]].
    exists (prefix next). split.
    - rewrite <- (app_nil_r (prefix next)).
      apply key_of_edge with c; [assumption|]. now apply nil_stored.
    - right; left. now exists w. }
  destruct (HasPrefix search (prefix next)) eqn:Hp.
  { intros H. destruct (IH _ _ E _ Hrn H) as [q [Hq Hc]].
    exists (prefix next ++ q). split.
    - now apply key_of_edge with c.
    - rewrite (HasPrefix_inv _ _ Hp). now apply covers_app. }
  destruct (HasPrefix (prefix next) search) eqn:Hp'; [|discriminate].
  now rewrite shorterRemainder_false.
Qed.

(** ** Patterns that are always found *)

Lemma matchWithWildcardsFrom_stored (n : Node T) o search :
  radix n = true -> In search (keys n) ->
  matchWithWildcardsFrom n o search = true.
Proof.
  revert search. induction n as [n IH] using Node_ind_edges. intros search Hr Hin.
  rewrite matchWithWildcardsFrom_eq. destruct search as [|c k].
  { now apply nil_stored in Hin. }
  destruct (hasWildcardChild n); [reflexivity|].
  destruct (stored_edge _ _ _ Hr Hin) as [child [r [E [Hrc [Hk [Heq _]]]]]].
  rewrite E, Heq. destruct (wildcardSuffixMatch child _); [reflexivity|].
  rewrite HasPrefix_app, skipn_app_exact.
  apply getEdge_In in E. now apply (IH c child).
Qed.

(** The pattern "*" stored below a node is a terminal child on its edge
    '*'. *)
Lemma star_stored_child (n : Node T) :
  radix n = true -> In [star] (keys n) -> hasWildcardChild n = true.
Proof.
  intros Hr Hin.
  destruct (stored_edge _ _ _ Hr Hin) as [child [r [E [Hrc [Hk [Heq [t Ht]]]]]]].
  unfold hasWildcardChild. rewrite E.
  rewrite Ht in Heq. injection Heq as Heq. symmetry in Heq.
  apply app_eq_nil in Heq as [_ ->]. now apply nil_stored.
Qed.

(** A stored pattern "stem.*" answers for every key that continues the
    stem with a dot and at least one more byte, however the labels of the
    tree are cut. *)
Lemma matchWithWildcardsFrom_beyond_stem (n : Node T) o stem x rest :
  radix n = true -> In (stem ++ [dot; star]) (keys n) ->
  matchWithWildcardsFrom n o (stem ++ dot :: x :: rest) = true.
Proof.
  revert stem. induction n as [n IH] using Node_ind_edges. intros stem Hr Hin.
  assert (exists c q s, stem ++ [dot; star] = c :: q
                        /\ stem ++ dot :: x :: rest = c :: s) as [c [q [s [Hq Hs]]]].
  { destruct stem as [|c stem]; simpl; eauto. }
  rewrite Hq in Hin.
  destruct (stored_edge _ _ _ Hr Hin) as [child [r [E [Hrc [Hk [Heq _]]]]]].
  rewrite matchWithWildcardsFrom_eq, Hs.
  destruct (hasWildcardChild n); [reflexivity|].
  rewrite E, <- Hs. clear Hs s.
  destruct (wildcardSuffixMatch child _) eqn:Hw; [reflexivity|].
  rewrite <- Hq in Heq. clear Hq q Hin.
  assert (Hchild := getEdge_In _ _ _ E).
  apply app_eq_app in Heq as [l [[-> ->]|[Hp Hl]]].
  - (* the label of the child ends within the stem *)
    rewrite <- app_assoc, HasPrefix_app, skipn_app_exact.
    now apply (IH c child Hchild l).
  - (* the label of the child reaches into ".*" *)
    destruct l as [|d [|a [|? ?]]]; simpl in Hl.
    + subst r. rewrite app_nil_r in Hp. rewrite Hp.
      rewrite HasPrefix_app, skipn_app_exact.
      now apply (IH c child Hchild []).
    + injection Hl as <- <-.
      replace (stem ++ dot :: x :: rest) with ((stem ++ [dot]) ++ x :: rest)
        by now rewrite <- app_assoc.
      rewrite Hp, HasPrefix_app, skipn_app_exact, matchWithWildcardsFrom_eq.
      now rewrite star_stored_child.
    + injection Hl as <- <- <-.
      assert (wildcardSuffixMatch child (stem ++ dot :: x :: rest) = true) as Hyes;
        [|congruence].
      apply wildcardSuffixMatch_iff. split; [now apply nil_stored|].
      exists stem. split; [assumption|]. right. now exists (x :: rest).
    + discriminate.
Qed.

(** ** MatchWithWildcards *)

Lemma MatchWithWildcards_nil (root : Node T) :
  MatchWithWildcards root [] = isLeaf root.
Proof.
  unfold MatchWithWildcards, isLeaf; simpl. rewrite Get_eq.
  now destruct (leaf root).
Qed.

Lemma MatchWithWildcards_cons (root : Node T) c rest :
  MatchWithWildcards root (c :: rest) =
  if found (Get root [star]) then true
  else matchWithWildcardsFrom root (c :: rest) (c :: rest).
Proof. reflexivity. Qed.

Lemma MatchWithWildcards_covered (root : Node T) k :
  radix root = true -> MatchWithWildcards root k = true ->
  exists q, In q (keys root) /\ covers q k.
Proof.
  intros Hr. destruct k as [|c rest].
  - rewrite MatchWithWildcards_nil. intros H.
    exists []. split; [now apply nil_stored|now left].
  - rewrite MatchWithWildcards_cons.
    destruct (Get root [star]) as [v|] eqn:G; simpl.
    + intros _. exists [star]. split; [now apply Get_stored with v|].
      right; right. now exists [], c, rest, [].
    + now apply matchWithWildcardsFrom_covered.
Qed.

(** A pattern "stem.*" whose stem has no '*' does not answer for a key
    that continues the stem with a byte other than the dot. *)
Lemma stem_pattern_not_covering (p : Key) c rest :
  star_free p = true -> c <> dot ->
  ~ covers (p ++ [dot; star]) (p ++ c :: rest).
Proof.
  intros Hp Hc [H|[[s [Hs Hseg]]|[u [x [v [r [Hk Hq]]]]]]].
  - apply app_inv_head in H. congruence.
  - apply (app_inv_tail [dot; star]) in Hs. subst s.
    destruct Hseg as [H|[r H]].
    + apply (f_equal (@length byte)) in H. rewrite length_app in H. simpl in H. lia.
    + apply app_inv_head in H. congruence.
  - apply app_eq_app in Hq as [l [[-> Hl]|[-> Hl]]].
    + destruct l as [|a l]; simpl in Hl; [discriminate|].
      injection Hl as <- _.
      unfold star_free in Hp. rewrite forallb_app in Hp.
      apply andb_true_iff in Hp as [_ Hp]. simpl in Hp. discriminate.
    + destruct l as [|d [|e l]]; simpl in Hl; try discriminate.
      * injection Hl as <- _. rewrite <- app_assoc in Hk.
        apply app_inv_head in Hk. simpl in Hk. congruence.
      * injection Hl as _ _ Hl. now destruct l.
Qed.

(** ** Labels that are not empty *)

Lemma nonempty_labels_inv (n : Node T) :
  nonempty_labels n = true ->
  forall b child, In (b, child) (edges n) ->
    0 < length (prefix child) /\ nonempty_labels child = true.
Proof.
  destruct n as [l p es]; simpl. intros Hall b child Hin.
  rewrite forallb_forall in Hall. specialize (Hall _ Hin). simpl in Hall.
  apply andb_true_iff in Hall as [Hlen Hrec]. split; [|assumption].
  apply negb_true_iff, Nat.eqb_neq in Hlen. lia.
Qed.

Lemma radix_nonempty_labels (n : Node T) :
  radix n = true -> nonempty_labels n = true.
Proof.
  induction n as [n IH] using Node_ind_edges. intros Hr.
  destruct (radix_inv _ Hr) as [_ Hedges].
  destruct n as [l p es]; simpl in *. apply forallb_forall.
  intros [b child] Hin. destruct (Hedges _ _ Hin) as [[t Ht] Hrc]. simpl.
  rewrite Ht. simpl. now apply (IH b child).
Qed.

Lemma GetDepth_enough (n : Node T) search fuel :
  nonempty_labels n = true -> length search < fuel ->
  GetDepth fuel n search = Some (Get n search).
Proof.
  revert n search. induction fuel as [|fuel IH]; intros n search Hne Hfuel; [lia|].
  rewrite Get_eq. simpl.
  destruct search as [|c rest]; [reflexivity|].
  destruct (getEdge n c) as [next|] eqn:E; [|reflexivity].
  destruct (HasPrefix (c :: rest) (prefix next)) eqn:Hp; [|reflexivity].
  apply getEdge_In in E.
  destruct (nonempty_labels_inv _ Hne _ _ E) as [Hlen Hnext].
  apply IH; [assumption|]. rewrite length_skipn. simpl length in *. lia.
Qed.

Lemma matchWithWildcardsFromDepth_enough (n : Node T) o search fuel :
  nonempty_labels n = true -> length search < fuel ->
  matchWithWildcardsFromDepth fuel n o search
  = Some (matchWithWildcardsFrom n o search).
Proof.
  revert n search. induction fuel as [|fuel IH]; intros n search Hne Hfuel; [lia|].
  rewrite matchWithWildcardsFrom_eq. simpl.
  destruct search as [|c rest]; [reflexivity|].
  destruct (hasWildcardChild n); [reflexivity|].
  destruct (getEdge n c) as [next|] eqn:E; [|reflexivity].
  destruct (wildcardSuffixMatch next (c :: rest)); [reflexivity|].
  destruct (HasPrefix (c :: rest) (prefix next)) eqn:Hp.
  - apply getEdge_In in E.
    destruct (nonempty_labels_inv _ Hne _ _ E) as [Hlen Hnext].
    apply IH; [assumption|]. rewrite length_skipn. simpl length in *. lia.
  - now destruct (HasPrefix (prefix next) (c :: rest)).
Qed.

(** ** Well-formed patterns *)

Lemma star_free_no_star (a b : Key) : star_free (a ++ star :: b) = false.
Proof.
  unfold star_free. rewrite forallb_app. simpl. apply andb_false_r.
Qed.

(** In a well-formed pattern a '*' is the last byte, and it is the whole
    pattern or comes after a dot. *)
Lemma wf_pattern_star (u rest : Key) :
  wf_pattern (u ++ star :: rest) = true ->
  rest = [] /\ (u = [] \/ exists p, u = p ++ [dot]).
Proof.
  unfold wf_pattern. rewrite rev_app_distr. simpl rev.
  destruct (rev rest) as [|z t] eqn:Hrest.
  - (* the '*' is the last byte *)
    intros H. split.
    { rewrite <- (rev_involutive rest), Hrest. reflexivity. }
    simpl in H.
    destruct (rev u) as [|d stem] eqn:Hu.
    + left. rewrite <- (rev_involutive u), Hu. reflexivity.
    + right. simpl in H.
      apply andb_true_iff in H as [[Hd _]%andb_true_iff _].
      apply byte_eqb_eq in Hd; subst d.
      exists (rev stem). rewrite <- (rev_involutive u), Hu. reflexivity.
  - (* a byte follows the '*' *)
    intros H. exfalso.
    assert (rest = rev t ++ [z]) as ->.
    { rewrite <- (rev_involutive rest), Hrest. reflexivity. }
    rewrite <- !app_assoc in H. simpl in H.
    destruct (t ++ star :: rev u) as [|d stem] eqn:Ht; [now destruct t|].
    destruct (Byte.eqb z star) eqn:Hz.
    + apply andb_true_iff in H as [[Hd _]%andb_true_iff Hfree].
      apply byte_eqb_eq in Hd; subst d.
      destruct t as [|d' t']; simpl in Ht; injection Ht as Hd Hstem.
      * discriminate.
      * rewrite <- Hstem, star_free_no_star in Hfree. discriminate.
    + rewrite star_free_no_star in H. discriminate.
Qed.

(** ** The contract on well-formed trees *)

(** A match is always accounted for by the contract. *)
Lemma contract_sound (root : Node T) k :
  wf_tree root = true -> MatchWithWildcards root k = true ->
  matches (keys root) k.
Proof.
  intros [Hr Hwf]%andb_true_iff H. rewrite forallb_forall in Hwf.
  destruct (MatchWithWildcards_covered _ _ Hr H)
    as [q [Hq [->|[[s [-> Hs]]|[u [c [v [rest [-> ->]]]]]]]]].
  - now left.
  - right; left. now exists s.
  - destruct (wf_pattern_star _ _ (Hwf _ Hq)) as [-> [->|[p ->]]].
    + right; right. split; [assumption|discriminate].
    + right; left. exists p. rewrite <- !app_assoc in *. split; [|assumption].
      right. now exists (c :: v).
Qed.

(** The contract is met for stored keys, for keys that go on after the dot
    that follows a stored stem, and for the pattern "*". *)
Lemma contract_complete_beyond_stem (root : Node T) k :
  radix root = true ->
  In k (keys root)
  \/ (exists p x rest, k = p ++ dot :: x :: rest /\ In (p ++ [dot; star]) (keys root))
  \/ (In [star] (keys root) /\ k <> []) ->
  MatchWithWildcards root k = true.
Proof.
  intros Hr [Hin|[[p [x [rest [-> Hin]]]]|[Hin Hk]]].
  - destruct k as [|c rest].
    + rewrite MatchWithWildcards_nil. now apply nil_stored.
    + rewrite MatchWithWildcards_cons.
      destruct (found (Get root [star])); [reflexivity|].
      now apply matchWithWildcardsFrom_stored.
  - unfold MatchWithWildcards.
    replace (length (p ++ dot :: x :: rest) =? 0) with false
      by (symmetry; apply Nat.eqb_neq; rewrite length_app; simpl; lia).
    destruct (found (Get root [star])); [reflexivity|].
    now apply matchWithWildcardsFrom_beyond_stem.
  - destruct k as [|c rest]; [contradiction|].
    rewrite MatchWithWildcards_cons. now rewrite Get_found.
Qed.

End RadixFacts.

(** * Part III: properties of the matcher *)

Section Claims.

Context {T : Type}.

(** C4 (amended).  When the label of the next edge starts with the
    remainder but the remainder does not start with the label, the value
    line 81 returns is false; and the call returns false unless one of the
    two wildcard tests placed before lines 78-82 (the '*'-edge test of
    lines 45-49, the ".*" suffix test of lines 58-72) has returned true. *)
Theorem shorter_remainder_never_matches (n next : Node T) (o : Key) c rest :
  getEdge n c = Some next ->
  HasPrefix (prefix next) (c :: rest) = true ->
  HasPrefix (c :: rest) (prefix next) = false ->
  shorterRemainder next (c :: rest) = false
  /\ (hasWildcardChild n = false ->
      wildcardSuffixMatch next (c :: rest) = false ->
      matchWithWildcardsFrom n o (c :: rest) = false).
Proof.
  intros E Hlab Hrem.
  pose proof (shorterRemainder_false _ _ Hrem Hlab) as Hline81.
  split; [assumption|]. intros Hstar Hsuffix.
  now rewrite matchWithWildcardsFrom_eq, Hstar, E, Hsuffix, Hrem, Hlab.
Qed.

(** C5 (amended).  Let "p.*" be stored, p without '*', and let the key
    continue p with a byte other than the dot.  Then the key is not
    matched, unless another stored pattern answers for it. *)
Theorem no_match_without_boundary (root : Node T) (p : Key) c rest :
  radix root = true ->
  star_free p = true ->
  In (p ++ [dot; star]) (keys root) ->
  c <> dot ->
  (forall q, In q (keys root) -> q <> p ++ [dot; star] ->
             ~ covers q (p ++ c :: rest)) ->
  MatchWithWildcards root (p ++ c :: rest) = false.
Proof.
  intros Hr Hp Hin Hc Hothers.
  destruct (MatchWithWildcards root (p ++ c :: rest)) eqn:M; [|reflexivity].
  destruct (MatchWithWildcards_covered _ _ Hr M) as [q [Hq Hcov]].
  exfalso. destruct (list_eq_dec Byte.byte_eq_dec q (p ++ [dot; star])) as [->|Hne].
  - now apply (stem_pattern_not_covering p c rest).
  - now apply (Hothers q).
Qed.

(** C6.  In a radix tree a stored key is always matched. *)
Theorem stored_key_matches (root : Node T) (k : Key) :
  radix root = true -> In k (keys root) -> MatchWithWildcards root k = true.
Proof.
  intros Hr Hin. destruct k as [|c rest].
  - rewrite MatchWithWildcards_nil. now apply nil_stored.
  - rewrite MatchWithWildcards_cons.
    destruct (found (Get root [star])); [reflexivity|].
    now apply matchWithWildcardsFrom_stored.
Qed.

(** C7.  When the pattern "*" is stored, every key that is not empty is
    matched. *)
Theorem universal_wildcard_matches (root : Node T) (k : Key) :
  radix root = true -> In [star] (keys root) -> k <> [] ->
  MatchWithWildcards root k = true.
Proof.
  intros Hr Hin Hk. destruct k as [|c rest]; [contradiction|].
  rewrite MatchWithWildcards_cons. now rewrite Get_found.
Qed.

(** C8.  The empty key is matched exactly when the empty key is stored,
    whatever else the tree holds. *)
Theorem empty_key_exact_only (root : Node T) :
  radix root = true ->
  (MatchWithWildcards root [] = true <-> In [] (keys root)).
Proof.
  intros Hr. rewrite MatchWithWildcards_nil. symmetry. now apply nil_stored.
Qed.

(** C9.  When every edge label is non-empty each call of line 77 is made
    on a strictly shorter remainder, so the recursion is at most as deep
    as the remainder is long: counted with any fuel above the length of
    the key, [matchWithWildcardsFrom] and [MatchWithWildcards] return, and
    return their results. *)
Theorem descent_terminates (n : Node T) (o search : Key) (fuel : nat) :
  nonempty_labels n = true ->
  length search < fuel ->
  matchWithWildcardsFromDepth fuel n o search
  = Some (matchWithWildcardsFrom n o search)
  /\ MatchWithWildcardsDepth fuel n search = Some (MatchWithWildcards n search)
  /\ forall c next, getEdge n c = Some next ->
       HasPrefix search (prefix next) = true ->
       length (skipn (length (prefix next)) search) < length search.
Proof.
  intros Hne Hfuel. split; [|split].
  - now apply matchWithWildcardsFromDepth_enough.
  - unfold MatchWithWildcardsDepth, MatchWithWildcards.
    destruct search as [|c rest]; simpl Nat.eqb; cbv iota.
    + now rewrite GetDepth_enough.
    + rewrite GetDepth_enough; [|assumption|simpl length in *; lia].
      destruct (found (Get n [star])); [reflexivity|].
      now apply matchWithWildcardsFromDepth_enough.
  - intros c next E Hp. apply getEdge_In in E.
    destruct (nonempty_labels_inv _ Hne _ _ E) as [Hlen _].
    apply HasPrefix_length in Hp. rewrite length_skipn. lia.
Qed.

(** C10.  The result of the traversal does not depend on [originalKey]. *)
Theorem originalKey_unused (n : Node T) (o1 o2 search : Key) :
  matchWithWildcardsFrom n o1 search = matchWithWildcardsFrom n o2 search.
Proof.
  revert search. induction n as [n IH] using Node_ind_edges. intros search.
  rewrite (matchWithWildcardsFrom_eq n o1), (matchWithWildcardsFrom_eq n o2).
  destruct search as [|c rest]; [reflexivity|].
  destruct (hasWildcardChild n); [reflexivity|].
  destruct (getEdge n c) as [next|] eqn:E; [|reflexivity].
  apply getEdge_In in E. now rewrite (IH c next E).
Qed.

End Claims.

(** * Part IV: instances on the hand-built trees *)

Import Examples.

(** The scenarios of the specification, run on the embedding. *)

Example scenario_A :
  MatchWithWildcards treeA (bytes_of "anything.at.all") = true
  /\ MatchWithWildcards treeA (bytes_of "") = false.
Proof. split; reflexivity. Qed.

Example scenario_B :
  MatchWithWildcards treeB (bytes_of "tenant.abc123.project.xyz789.member.add") = true
  /\ MatchWithWildcards treeB (bytes_of "tenantX.foo") = false.
Proof. split; reflexivity. Qed.

Example scenario_C :
  MatchWithWildcards treeC (bytes_of "tenant.abc123.project.xyz789.member.add") = true
  /\ MatchWithWildcards treeC (bytes_of "tenant.abc123.project.xyz789.member.remove") = false.
Proof. split; reflexivity. Qed.

Example scenario_D :
  MatchWithWildcards treeD (bytes_of "tenant.abc123.project.xyz789.member.add") = true
  /\ MatchWithWildcards treeD (bytes_of "tenant.abc124.project.xyz789") = false.
Proof. split; reflexivity. Qed.

Example scenario_E :
  MatchWithWildcards treeE (bytes_of "tenant.abc123") = false
  /\ MatchWithWildcards treeE (bytes_of "") = false.
Proof. split; reflexivity. Qed.

(** C1.  The patterns "tenant.*" and "tenantX" are well formed and
    "tenant" is a segment prefix of the key "tenant", so that the contract
    asks for a match; the label "tenant.*" being cut after "tenant", the
    traversal exhausts the key on a node that is not terminal and answers
    false. *)
Theorem contract_fails_on_split_stem :
  wf_tree treeTenant = true
  /\ keys treeTenant = [bytes_of "tenant.*"; bytes_of "tenantX"]
  /\ matches (keys treeTenant) (bytes_of "tenant")
  /\ MatchWithWildcards treeTenant (bytes_of "tenant") = false.
Proof.
  split; [reflexivity|]. split; [reflexivity|]. split; [|reflexivity].
  right; left. exists (bytes_of "tenant"). split; [now left|].
  left. reflexivity.
Qed.

(** C2.  With "a.*" stored alone the key "a" is matched; once "a.b" is
    stored too the label is cut after the dot, and neither the key "a" nor
    the key "a." is matched any more, "a.*" being still stored. *)
Theorem stem_key_lost_after_split :
  (keys treeStem = [bytes_of "a.*"]
   /\ MatchWithWildcards treeStem (bytes_of "a") = true
   /\ MatchWithWildcards treeStem (bytes_of "a.") = true)
  /\ (radix treeSplit = true
      /\ keys treeSplit = [bytes_of "a.*"; bytes_of "a.b"]
      /\ MatchWithWildcards treeSplit (bytes_of "a") = false
      /\ MatchWithWildcards treeSplit (bytes_of "a.") = false).
Proof. repeat split; reflexivity. Qed.

(** C3.  The pattern "a.*x" has a '*' that is not final.  Stored alone it
    does not answer for the key "a.c": its label does not end with ".*".
    Once "a.b" is stored too the label is cut before the '*', and the key
    "a.c", which is not stored, is matched: the test of lines 45-49 finds
    the terminal child "*x" on the edge '*' and does not look at the rest
    of its label.  No label of that tree ends with ".*". *)
Theorem inner_star_matches_after_split :
  (radix treeInnerAlone = true
   /\ keys treeInnerAlone = [bytes_of "a.*x"]
   /\ MatchWithWildcards treeInnerAlone (bytes_of "a.c") = false)
  /\ (radix treeInner = true
      /\ keys treeInner = [bytes_of "a.*x"; bytes_of "a.b"]
      /\ labels treeInner = [bytes_of "a."; bytes_of "*x"; bytes_of "b"]
      /\ forallb (fun lab => negb (endsWithDotStar lab)) (labels treeInner) = true
      /\ hasWildcardChild (inner "a." [("*"%byte, leafNode "*x");
                                       ("b"%byte, leafNode "b")]) = true
      /\ MatchWithWildcards treeInner (bytes_of "a.c") = true).
Proof. repeat split; reflexivity. Qed.

(** C4, counterexample.  "tenant.*" is stored on one label and the key is
    "tenant": the label starts with the remainder, the remainder does not
    start with the label, and the call returns true, at line 69. *)
Lemma suffix_test_returns_before_branch :
  getEdge treeB "t"%byte = Some (leafNode "tenant.*")
  /\ HasPrefix (prefix (leafNode "tenant.*")) (bytes_of "tenant") = true
  /\ HasPrefix (bytes_of "tenant") (prefix (leafNode "tenant.*")) = false
  /\ wildcardSuffixMatch (leafNode "tenant.*") (bytes_of "tenant") = true
  /\ matchWithWildcardsFrom treeB (bytes_of "tenant") (bytes_of "tenant") = true
  /\ MatchWithWildcards treeB (bytes_of "tenant") = true.
Proof. repeat split; reflexivity. Qed.

Lemma shorter_remainder_never_matches_witness :
  getEdge treeC "t"%byte
    = Some (leafNode "tenant.abc123.project.xyz789.member.add")
  /\ shorterRemainder (leafNode "tenant.abc123.project.xyz789.member.add")
       (bytes_of "tenant.abc") = false
  /\ matchWithWildcardsFrom treeC [] (bytes_of "tenant.abc") = false.
Proof.
  split; [reflexivity|].
  destruct (shorter_remainder_never_matches treeC
              (leafNode "tenant.abc123.project.xyz789.member.add") []
              "t"%byte (bytes_of "enant.abc")) as [Hline81 Hcall];
    [reflexivity|reflexivity|reflexivity|].
  split; [exact Hline81|]. apply Hcall; reflexivity.
Defined.

(** C5, counterexample.  "tenant.*" is stored and the key "tenantX"
    continues "tenant" with a byte that is not the dot, but the key is
    stored itself and is matched. *)
Lemma other_pattern_answers :
  In (bytes_of "tenant.*") (keys treeTenant)
  /\ bytes_of "tenantX" = bytes_of "tenant" ++ "X"%byte :: []
  /\ MatchWithWildcards treeTenant (bytes_of "tenantX") = true.
Proof. split; [now left|]. split; reflexivity. Qed.

Lemma no_match_without_boundary_witness :
  radix treeB = true
  /\ star_free (bytes_of "tenant") = true
  /\ In (bytes_of "tenant.*") (keys treeB)
  /\ MatchWithWildcards treeB (bytes_of "tenantX.foo") = false.
Proof.
  split; [reflexivity|]. split; [reflexivity|]. split; [now left|].
  apply (no_match_without_boundary treeB (bytes_of "tenant") "X"%byte
           (bytes_of ".foo")).
  - reflexivity.
  - reflexivity.
  - now left.
  - discriminate.
  - intros q [<-|[]] Hne. now contradiction Hne.
Defined.

Lemma stored_key_matches_witness :
  radix treeSplit = true
  /\ In (bytes_of "a.b") (keys treeSplit)
  /\ MatchWithWildcards treeSplit (bytes_of "a.b") = true.
Proof.
  split; [reflexivity|]. split; [right; now left|].
  apply (stored_key_matches treeSplit (bytes_of "a.b")); [reflexivity|].
  right; now left.
Defined.

Lemma universal_wildcard_matches_witness :
  radix treeA = true
  /\ In [star] (keys treeA)
  /\ MatchWithWildcards treeA (bytes_of "anything.at.all") = true.
Proof.
  split; [reflexivity|]. split; [now left|].
  apply (universal_wildcard_matches treeA (bytes_of "anything.at.all"));
    [reflexivity|now left|discriminate].
Defined.

Lemma empty_key_exact_only_witness :
  radix treeA = true
  /\ (MatchWithWildcards treeA [] = true <-> In [] (keys treeA)).
Proof.
  split; [reflexivity|]. apply (empty_key_exact_only treeA). reflexivity.
Defined.

Lemma descent_terminates_witness :
  nonempty_labels treeSplit = true
  /\ matchWithWildcardsFromDepth 4 treeSplit [] (bytes_of "a.c")
     = Some (matchWithWildcardsFrom treeSplit [] (bytes_of "a.c"))
  /\ MatchWithWildcardsDepth 4 treeSplit (bytes_of "a.c")
     = Some (MatchWithWildcards treeSplit (bytes_of "a.c")).
Proof.
  split; [reflexivity|].
  destruct (descent_terminates treeSplit [] (bytes_of "a.c") 4) as [H1 [H2 _]];
    [reflexivity|simpl; lia|].
  split; [exact H1|exact H2].
Defined.

(** Without the invariant the bound fails: below three empty labels the
    key "a" needs four calls, more than its length plus one. *)
Example empty_labels_need_more_depth :
  nonempty_labels treeEmptyLabels = false
  /\ matchWithWildcardsFromDepth 2 treeEmptyLabels [] (bytes_of "a") = None
  /\ matchWithWildcardsFromDepth 4 treeEmptyLabels [] (bytes_of "a") = Some true.
Proof. repeat split; reflexivity. Qed.

(** * Part V: further properties of the matcher *)

Section Further.

Context {T : Type}.

(** ** Exact lookup and the matcher *)

Lemma matchWithWildcardsFrom_of_Get (n : Node T) o search :
  found (Get n search) = true -> matchWithWildcardsFrom n o search = true.
Proof.
  revert search. induction n as [n IH] using Node_ind_edges. intros search.
  rewrite Get_eq, matchWithWildcardsFrom_eq. destruct search as [|c rest].
  - unfold isLeaf. now destruct (leaf n).
  - destruct (hasWildcardChild n); [reflexivity|].
    destruct (getEdge n c) as [next|] eqn:E; [|discriminate].
    destruct (wildcardSuffixMatch next (c :: rest)); [reflexivity|].
    destruct (HasPrefix (c :: rest) (prefix next)); [|discriminate].
    apply getEdge_In in E. now apply (IH c next).
Qed.

(** X1.  On every tree, radix or not, a key that [Get] finds is matched:
    the traversal follows the path of [Get] and can only answer true
    earlier. *)
Theorem exact_lookup_matches (root : Node T) (k : Key) :
  found (Get root k) = true -> MatchWithWildcards root k = true.
Proof.
  intros H. unfold MatchWithWildcards.
  destruct (length k =? 0); [assumption|].
  destruct (found (Get root [star])); [reflexivity|].
  now apply matchWithWildcardsFrom_of_Get.
Qed.

Lemma covers_star_free (q k : Key) :
  star_free q = true -> covers q k -> q = k.
Proof.
  intros Hq [H|[[s [-> _]]|[u [c [v [rest [_ ->]]]]]]]; [assumption| |].
  - replace (s ++ [dot; star]) with ((s ++ [dot]) ++ star :: []) in Hq
      by now rewrite <- app_assoc.
    rewrite star_free_no_star in Hq. discriminate.
  - rewrite star_free_no_star in Hq. discriminate.
Qed.

(** X2.  In a radix tree none of whose stored patterns contains a '*',
    the matcher is the exact lookup. *)
Theorem no_wildcards_exact_lookup (root : Node T) (k : Key) :
  radix root = true ->
  forallb star_free (keys root) = true ->
  MatchWithWildcards root k = found (Get root k).
Proof.
  intros Hr Hfree. rewrite forallb_forall in Hfree.
  destruct (found (Get root k)) eqn:G.
  - unfold MatchWithWildcards.
    destruct (length k =? 0); [assumption|].
    destruct (found (Get root [star])); [reflexivity|].
    now apply matchWithWildcardsFrom_of_Get.
  - destruct (MatchWithWildcards root k) eqn:M; [|reflexivity].
    destruct (MatchWithWildcards_covered _ _ Hr M) as [q [Hq Hcov]].
    apply covers_star_free in Hcov; [|now apply Hfree]. subst q.
    rewrite (Get_found _ _ Hr Hq) in G. discriminate.
Qed.

(** ** The contract, where it holds *)

(** X3.  On a well-formed tree every match is one the contract allows;
    and the contract is met for every key that is not a stored stem, with
    or without a dot after it. *)
Theorem contract_holds_off_stems (root : Node T) (k : Key) :
  wf_tree root = true ->
  (MatchWithWildcards root k = true -> matches (keys root) k)
  /\ ((forall p, In (p ++ [dot; star]) (keys root) -> k <> p /\ k <> p ++ [dot]) ->
      matches (keys root) k -> MatchWithWildcards root k = true).
Proof.
  intros Hwf. split; [now apply contract_sound|].
  apply andb_true_iff in Hwf as [Hr _].
  intros Hoff [Hin|[[p [Hseg Hin]]|Hstar]].
  - apply contract_complete_beyond_stem; auto.
  - destruct (Hoff p Hin) as [Hne Hned].
    destruct Hseg as [->|[[|x rest] ->]]; [now contradiction Hne|now contradiction Hned|].
    apply contract_complete_beyond_stem; [assumption|].
    right; left. now exists p, x, rest.
  - apply contract_complete_beyond_stem; auto.
Qed.

(** X4.  In a radix tree a stored pattern "p.*" answers for every key
    that continues p with a dot and at least one more byte, whatever the
    other patterns and however the labels are cut. *)
Theorem wildcard_covers_deeper_keys (root : Node T) (p : Key) x rest :
  radix root = true ->
  In (p ++ [dot; star]) (keys root) ->
  MatchWithWildcards root (p ++ dot :: x :: rest) = true.
Proof.
  intros Hr Hin. unfold MatchWithWildcards.
  replace (length (p ++ dot :: x :: rest) =? 0) with false
    by (symmetry; apply Nat.eqb_neq; rewrite length_app; simpl; lia).
  destruct (found (Get root [star])); [reflexivity|].
  now apply matchWithWildcardsFrom_beyond_stem.
Qed.

(** ** Matches that are not exact *)

Lemma segment_prefix_extend (w s ext : Key) :
  segment_prefix w s -> segment_prefix w (s ++ dot :: ext).
Proof.
  intros [->|[rest ->]]; right.
  - now exists ext.
  - exists (rest ++ dot :: ext). now rewrite <- app_assoc.
Qed.

Lemma matchWithWildcardsFrom_extends (n : Node T) o o' search ext :
  matchWithWildcardsFrom n o search = true ->
  found (Get n search) = false ->
  matchWithWildcardsFrom n o' (search ++ dot :: ext) = true.
Proof.
  revert search. induction n as [n IH] using Node_ind_edges. intros search.
  rewrite (matchWithWildcardsFrom_eq n o search), Get_eq,
    (matchWithWildcardsFrom_eq n o' (search ++ dot :: ext)).
  destruct search as [|c rest].
  { unfold isLeaf. destruct (leaf n); simpl; congruence. }
  simpl app. destruct (hasWildcardChild n); [reflexivity|].
  destruct (getEdge n c) as [next|] eqn:E; [|discriminate].
  change (c :: rest ++ dot :: ext) with ((c :: rest) ++ dot :: ext).
  destruct (wildcardSuffixMatch next (c :: rest)) eqn:W.
  - intros _ _.
    assert (wildcardSuffixMatch next ((c :: rest) ++ dot :: ext) = true) as ->;
      [|reflexivity].
    apply wildcardSuffixMatch_iff in W as [Hl [w [Hp Hs]]].
    apply wildcardSuffixMatch_iff. split; [assumption|].
    exists w. split; [assumption|]. now apply segment_prefix_extend.
  - destruct (HasPrefix (c :: rest) (prefix next)) eqn:Hp.
    + intros Hm Hg.
      destruct (wildcardSuffixMatch next ((c :: rest) ++ dot :: ext));
        [reflexivity|].
      pose proof (HasPrefix_inv _ _ Hp) as Heq.
      replace ((c :: rest) ++ dot :: ext)
        with (prefix next ++ (skipn (length (prefix next)) (c :: rest) ++ dot :: ext))
        by (rewrite app_assoc, <- Heq; reflexivity).
      rewrite HasPrefix_app, skipn_app_exact.
      apply getEdge_In in E. now apply (IH c next E).
    + destruct (HasPrefix (prefix next) (c :: rest)) eqn:Hp'; [|discriminate].
      now rewrite shorterRemainder_false.
Qed.

(** X5.  On every tree, a key that is matched without being found by
    [Get] is matched through a wildcard, and then every key that extends
    it with a dot and further bytes is matched too. *)
Theorem wildcard_match_extends (root : Node T) (k ext : Key) :
  MatchWithWildcards root k = true ->
  found (Get root k) = false ->
  MatchWithWildcards root (k ++ dot :: ext) = true.
Proof.
  destruct k as [|c rest].
  - rewrite MatchWithWildcards_nil, Get_eq. unfold isLeaf.
    destruct (leaf root); simpl; congruence.
  - simpl app. rewrite !MatchWithWildcards_cons.
    destruct (found (Get root [star])); [reflexivity|].
    apply (matchWithWildcardsFrom_extends root (c :: rest) _ (c :: rest) ext).
Qed.

(** ** Keys that are rejected *)

(** X6.  In a radix tree a key is rejected when no stored pattern begins
    with the first byte of the key and none begins with '*'. *)
Theorem foreign_first_byte_rejected (root : Node T) c (rest : Key) :
  radix root = true ->
  (forall q, In q (keys root) -> hd_error q <> Some c /\ hd_error q <> Some star) ->
  MatchWithWildcards root (c :: rest) = false.
Proof.
  intros Hr Hnone.
  destruct (MatchWithWildcards root (c :: rest)) eqn:M; [|reflexivity].
  destruct (MatchWithWildcards_covered _ _ Hr M) as [q [Hq Hcov]].
  destruct (Hnone q Hq) as [Hc Hs]. exfalso.
  destruct Hcov as [->|[[s [-> Hseg]]|[u [x [v [r [Hk ->]]]]]]].
  - now apply Hc.
  - destruct Hseg as [<-|[r Hk]]; [now apply Hc|].
    destruct s as [|a s]; simpl in *; injection Hk as -> _; now apply Hc.
  - destruct u as [|a u]; simpl in *; [now apply Hs|].
    injection Hk as -> _. now apply Hc.
Qed.

End Further.

(** ** The values stored with the patterns *)

Section Values.

Context {T U : Type} (f : T -> U).

Lemma prefix_mapValues (n : Node T) : prefix (mapValues f n) = prefix n.
Proof. now destruct n. Qed.

Lemma isLeaf_mapValues (n : Node T) : isLeaf (mapValues f n) = isLeaf n.
Proof. destruct n as [[v|] p es]; reflexivity. Qed.

Lemma getEdge_mapValues (n : Node T) c :
  getEdge (mapValues f n) c = option_map (mapValues f) (getEdge n c).
Proof.
  destruct n as [l p es]. unfold getEdge. simpl.
  induction es as [|[b child] es IH]; simpl; [reflexivity|].
  now destruct (Byte.eqb b c).
Qed.

Lemma hasWildcardChild_mapValues (n : Node T) :
  hasWildcardChild (mapValues f n) = hasWildcardChild n.
Proof.
  unfold hasWildcardChild. rewrite getEdge_mapValues.
  destruct (getEdge n star); simpl; [apply isLeaf_mapValues|reflexivity].
Qed.

Lemma wildcardSuffixMatch_mapValues (next : Node T) search :
  wildcardSuffixMatch (mapValues f next) search = wildcardSuffixMatch next search.
Proof.
  unfold wildcardSuffixMatch, isWildcardPattern, wildcardPrefix.
  now rewrite prefix_mapValues, isLeaf_mapValues.
Qed.

Lemma Get_mapValues (n : Node T) search :
  Get (mapValues f n) search = option_map f (Get n search).
Proof.
  revert search. induction n as [n IH] using Node_ind_edges. intros search.
  rewrite (Get_eq (mapValues f n)), (Get_eq n). destruct search as [|c rest].
  - now destruct n.
  - rewrite getEdge_mapValues.
    destruct (getEdge n c) as [next|] eqn:E; simpl; [|reflexivity].
    rewrite prefix_mapValues.
    destruct (HasPrefix (c :: rest) (prefix next)); [|reflexivity].
    apply getEdge_In in E. now apply (IH c next).
Qed.

Lemma matchWithWildcardsFrom_mapValues (n : Node T) o search :
  matchWithWildcardsFrom (mapValues f n) o search
  = matchWithWildcardsFrom n o search.
Proof.
  revert search. induction n as [n IH] using Node_ind_edges. intros search.
  rewrite (matchWithWildcardsFrom_eq (mapValues f n)), (matchWithWildcardsFrom_eq n).
  destruct search as [|c rest]; [apply isLeaf_mapValues|].
  rewrite hasWildcardChild_mapValues, getEdge_mapValues.
  destruct (hasWildcardChild n); [reflexivity|].
  destruct (getEdge n c) as [next|] eqn:E; simpl; [|reflexivity].
  rewrite wildcardSuffixMatch_mapValues, prefix_mapValues.
  unfold shorterRemainder. rewrite isLeaf_mapValues, prefix_mapValues.
  apply getEdge_In in E. now rewrite (IH c next E).
Qed.

(** X7.  The answer of the matcher does not depend on the values stored
    with the patterns: replacing them leaves every answer unchanged. *)
Theorem values_unused (root : Node T) (k : Key) :
  MatchWithWildcards (mapValues f root) k = MatchWithWildcards root k.
Proof.
  unfold MatchWithWildcards.
  rewrite !Get_mapValues, matchWithWildcardsFrom_mapValues.
  now destruct (Get root k), (Get root [star]).
Qed.

End Values.

(** ** Instances *)

Lemma exact_lookup_matches_witness :
  found (Get treeTenant (bytes_of "tenantX")) = true
  /\ MatchWithWildcards treeTenant (bytes_of "tenantX") = true.
Proof.
  split; [reflexivity|].
  apply (exact_lookup_matches treeTenant (bytes_of "tenantX")). reflexivity.
Defined.

Lemma no_wildcards_exact_lookup_witness :
  radix treeC = true
  /\ forallb star_free (keys treeC) = true
  /\ MatchWithWildcards treeC (bytes_of "tenant.abc123")
     = found (Get treeC (bytes_of "tenant.abc123")).
Proof.
  split; [reflexivity|]. split; [reflexivity|].
  apply (no_wildcards_exact_lookup treeC (bytes_of "tenant.abc123"));
    reflexivity.
Defined.

Lemma contract_holds_off_stems_witness :
  wf_tree treeSplit = true
  /\ matches (keys treeSplit) (bytes_of "a.c")
  /\ MatchWithWildcards treeSplit (bytes_of "a.c") = true.
Proof.
  assert (matches (keys treeSplit) (bytes_of "a.c")) as Hm.
  { right; left. exists (bytes_of "a"). split; [|now left].
    right. now exists (bytes_of "c"). }
  split; [reflexivity|]. split; [exact Hm|].
  destruct (contract_holds_off_stems treeSplit (bytes_of "a.c")) as [_ Hif];
    [reflexivity|].
  apply Hif; [|exact Hm].
  intros p [Hp|[Hp|[]]].
  - apply (app_inv_tail [dot; star] (bytes_of "a") p) in Hp. subst p.
    split; discriminate.
  - apply (f_equal (@rev byte)) in Hp. rewrite (rev_app_distr p) in Hp.
    vm_compute in Hp. discriminate.
Defined.

Lemma wildcard_covers_deeper_keys_witness :
  radix treeSplit = true
  /\ In (bytes_of "a" ++ [dot; star]) (keys treeSplit)
  /\ MatchWithWildcards treeSplit (bytes_of "a" ++ dot :: bytes_of "c.d") = true.
Proof.
  split; [reflexivity|]. split; [now left|].
  apply (wildcard_covers_deeper_keys treeSplit (bytes_of "a") "c"%byte
           (bytes_of ".d")); [reflexivity|now left].
Defined.

Lemma wildcard_match_extends_witness :
  MatchWithWildcards treeStem (bytes_of "a") = true
  /\ found (Get treeStem (bytes_of "a")) = false
  /\ MatchWithWildcards treeStem (bytes_of "a" ++ dot :: bytes_of "b.c") = true.
Proof.
  split; [reflexivity|]. split; [reflexivity|].
  apply (wildcard_match_extends treeStem (bytes_of "a") (bytes_of "b.c"));
    reflexivity.
Defined.

Lemma foreign_first_byte_rejected_witness :
  radix treeSplit = true
  /\ MatchWithWildcards treeSplit (bytes_of "b.a") = false.
Proof.
  split; [reflexivity|].
  apply (foreign_first_byte_rejected treeSplit "b"%byte (bytes_of ".a"));
    [reflexivity|].
  intros q [<-|[<-|[]]]; split; discriminate.
Defined.
